(** * hostpathcsi: the host-path CSI driver and its file-system effects

    A shallow embedding of [pkg/hostpathcsi] (controller.go, node.go).  The
    handlers are translated line by line on top of a model of the calls they
    make into Go's [os] and [path/filepath] packages.

    The file system is a finite map from resolved paths to objects.  Path
    strings are resolved lexically from the root (empty and [.] elements are
    skipped, [..] steps to the parent) and symbolic links are followed by
    [Stat] in the last element only.  This is what the kernel does for a
    clean path (no empty, [.] or [..] element, no separator at the end) on
    which no symbolic link stands short of the last element, and for a path
    that reaches such a one through [..] elements behind directories that
    exist; for other paths it is an approximation.  A property that depends
    on the difference carries the hypotheses that keep its calls on the
    exact side: [proper_name] for a volume name, [clean_absolute] for a
    target, [through_link] or [blocked] for what stands on the way.

    Failures that come from outside the name space (permissions, quotas,
    I/O, the limits on the length of a name or a path) are not part of the
    model. *)

From Stdlib Require Import ZArith Ascii String.
From stdpp Require Import gmap strings list fin_maps.

(** ** Results *)

(** A Go pair [(value, error)] of which exactly one is set. *)
Inductive result (E A : Type) : Type :=
| Ok (a : A)
| Err (e : E).
Arguments Ok {E A} a.
Arguments Err {E A} e.

(** What a gRPC handler does with a request: it returns a response, returns
    an error (built by [fmt.Errorf], so a message), or panics. *)
Inductive rpc (A : Type) : Type :=
| Return (resp : A)
| Fail (err : string)
| Panic (msg : string).
Arguments Return {A} resp.
Arguments Fail {A} err.
Arguments Panic {A} msg.

(** ** Paths *)

Abbreviation path := (list string).

Definition IsPathSeparator (c : ascii) : bool := Ascii.eqb c "/"%char.

(** The elements of a path string: the substrings between separators,
    empty ones included, so ["/a//b/"] has elements ["", "a", "", "b", ""]. *)
Fixpoint elements_of (s : string) : list string :=
  match s with
  | EmptyString => [EmptyString]
  | String c s' =>
      if IsPathSeparator c then EmptyString :: elements_of s'
      else match elements_of s' with
           | [] => [String c EmptyString]
           | x :: xs => String c x :: xs
           end
  end.

Definition parent (p : path) : path := removelast p.

(** One step of path resolution. *)
Definition walk (p : path) (elem : string) : path :=
  if decide (elem = "" ∨ elem = ".") then p
  else if decide (elem = "..") then parent p
  else p ++ [elem].

Definition resolve_from (base : path) (s : string) : path :=
  fold_left walk (elements_of s) base.

(** The working directory is taken to be the root. *)
Definition resolve (s : string) : path := resolve_from [] s.

(** One step of [filepath.Clean], on the elements of a path: empty and [.]
    elements are dropped, [..] takes back the element before it, and is
    dropped at the root. *)
Definition clean_step (rooted : bool) (out : path) (elem : string) : path :=
  if decide (elem = "" ∨ elem = ".") then out
  else if decide (elem = "..") then
    match last out with
    | Some top => if decide (top = "..") then out ++ [elem] else removelast out
    | None => if rooted then out else out ++ [elem]
    end
  else out ++ [elem].

Definition join_elems (rooted : bool) (out : path) : string :=
  let s := (if rooted then "/" else "") +:+ String.concat "/" out in
  if decide (s = "") then "." else s.

Definition is_rooted (es : list string) : bool :=
  match es with
  | x :: _ :: _ => bool_decide (x = "")
  | _ => false
  end.

(** [filepath.Dir]: what stands before the last element, cleaned; [.] when
    that is empty. *)
Definition filepath_Dir (s : string) : string :=
  let es := elements_of s in
  let rooted := is_rooted es in
  join_elems rooted (fold_left (clean_step rooted) (removelast es) []).

(** ** Names and clean paths *)

Fixpoint no_separator (s : string) : bool :=
  match s with
  | EmptyString => true
  | String c s' => negb (IsPathSeparator c) && no_separator s'
  end.

Definition proper_name (x : string) : Prop :=
  no_separator x = true ∧ x ≠ "" ∧ x ≠ "." ∧ x ≠ "..".

(** An absolute path in clean form: a separator before each of its one or
    more names. *)
Definition clean_absolute (t : string) : Prop :=
  ∃ names, names ≠ [] ∧ Forall proper_name names
           ∧ t = "/" +:+ String.concat "/" names.

(** ** The file system *)

Inductive node : Type :=
| Dir
| File (data : string)
| Symlink (target : string).

Global Instance node_eq_dec : EqDecision node.
Proof. solve_decision. Defined.

(** Every object other than the root, by resolved path.  The root is a
    directory and is no entry of the map. *)
Abbreviation world := (gmap path node).

Inductive Errno : Type := ENOENT | EEXIST | ENOTDIR | ELOOP | EINVAL.

Global Instance Errno_eq_dec : EqDecision Errno.
Proof. solve_decision. Defined.

Definition Errno_Error (e : Errno) : string :=
  match e with
  | ENOENT => "no such file or directory"
  | EEXIST => "file exists"
  | ENOTDIR => "not a directory"
  | ELOOP => "too many levels of symbolic links"
  | EINVAL => "invalid argument"
  end.

(** [*os.PathError] and [*os.LinkError]. *)
Inductive OsError : Type :=
| PathError (op : string) (name : string) (e : Errno)
| LinkError (op : string) (old new : string) (e : Errno).

Definition errno_of (e : OsError) : Errno :=
  match e with
  | PathError _ _ e => e
  | LinkError _ _ _ e => e
  end.

Definition OsError_Error (e : OsError) : string :=
  match e with
  | PathError op name e => op +:+ " " +:+ name +:+ ": " +:+ Errno_Error e
  | LinkError op old new e =>
      op +:+ " " +:+ old +:+ " " +:+ new +:+ ": " +:+ Errno_Error e
  end.

(** [os.IsNotExist], on the error half of a result ([nil] is not). *)
Definition IsNotExist {A} (r : result OsError A) : bool :=
  match r with
  | Ok _ => false
  | Err e => bool_decide (errno_of e = ENOENT)
  end.

(** [os.FileMode]: a 32-bit mask, the type bits high, the permissions low. *)
Definition ModeDir : Z := Z.shiftl 1 31.
Definition ModeSymlink : Z := Z.shiftl 1 27.

Record FileInfo : Type := { Name_ : string; Mode : Z }.

Definition IsDir (fi : FileInfo) : bool :=
  negb (Z.land (Mode fi) ModeDir =? 0)%Z.

Definition mode_of (n : node) : Z :=
  match n with
  | Dir => Z.lor ModeDir 493%Z           (* 0755 *)
  | File _ => 420%Z                     (* 0644 *)
  | Symlink _ => Z.lor ModeSymlink 511%Z (* 0777 *)
  end.

Definition base_name (p : path) : string := default "/" (last p).

Definition info_of (p : path) (n : node) : FileInfo :=
  {| Name_ := base_name p; Mode := mode_of n |}.

Definition proper_prefixes (p : path) : list path :=
  (λ n, take n p) <$> seq 1 (length p - 1).

Definition is_obstacle (w : world) (q : path) : bool :=
  match w !! q with
  | Some Dir | None => false
  | Some _ => true
  end.

(** An element of [p] short of the last one exists and is no directory. *)
Definition blocked (w : world) (p : path) : bool :=
  existsb (is_obstacle w) (proper_prefixes p).

Definition is_link (w : world) (q : path) : bool :=
  match w !! q with
  | Some (Symlink _) => true
  | _ => false
  end.

(** A symbolic link stands on the way to [p], short of [p] itself. *)
Definition through_link (w : world) (p : path) : bool :=
  existsb (is_link w) (proper_prefixes p).

(** The object at [p], links not followed.  A missing object is reported as
    [ENOTDIR] when something that is no directory stands in the way. *)
Definition lstat (w : world) (p : path) : result Errno node :=
  match p with
  | [] => Ok Dir
  | _ =>
      match w !! p with
      | Some n => Ok n
      | None => Err (if blocked w p then ENOTDIR else ENOENT)
      end
  end.

Definition resolve_link (dir : path) (target : string) : path :=
  if is_rooted (elements_of target) then resolve target
  else resolve_from dir target.

(** The object at [p], a link in the last element followed, at most [fuel]
    times. *)
Fixpoint stat (fuel : nat) (w : world) (p : path) : result Errno node :=
  match lstat w p with
  | Ok (Symlink target) =>
      match fuel with
      | O => Err ELOOP
      | S fuel' => stat fuel' w (resolve_link (parent p) target)
      end
  | r => r
  end.

Definition MAXSYMLINKS : nat := 40.

(** Creation of one object: the name must be free and its parent a
    directory. *)
Definition create (p : path) (n : node) (w : world) : option Errno * world :=
  match lstat w p with
  | Ok _ => (Some EEXIST, w)
  | Err _ =>
      match lstat w (parent p) with
      | Ok Dir => (None, <[p := n]> w)
      | Ok _ => (Some ENOTDIR, w)
      | Err e => (Some e, w)
      end
  end.

Definition is_dir (r : result Errno node) : bool :=
  match r with
  | Ok n => IsDir (info_of [] n)
  | Err _ => false
  end.

(** [os.MkdirAll], on the path with its last element first: if the path is
    a directory there is nothing to do; if it is something else that is an
    error; otherwise the parent is made first and then the directory itself.
    An error comes with the path of the directory that could not be made. *)
Fixpoint mkdir_all (rp : list string) (w : world)
  : option (Errno * path) * world :=
  match stat MAXSYMLINKS w (rev rp) with
  | Ok n =>
      if IsDir (info_of (rev rp) n) then (None, w)
      else (Some (ENOTDIR, rev rp), w)
  | Err _ =>
      let '(err, w1) :=
        match rp with
        | [] => (None, w)
        | _ :: rparent => mkdir_all rparent w
        end in
      match err with
      | Some e => (Some e, w1)
      | None =>
          match create (rev rp) Dir w1 with
          | (None, w2) => (None, w2)
          | (Some e, w2) =>
              if is_dir (lstat w2 (rev rp)) then (None, w2)
              else (Some (e, rev rp), w2)
          end
      end
  end.

(** [os.RemoveAll]: the object at [p] and everything below it. *)
Definition remove_all (p : path) (w : world) : world :=
  filter (λ kv, ¬ p `prefix_of` kv.1) w.

(** ** Well-formed file systems

    Every object has a name and lives in a directory. *)
Global Instance result_eq_dec `{EqDecision E, EqDecision A} :
  EqDecision (result E A).
Proof. solve_decision. Defined.

Definition wf (w : world) : Prop :=
  map_Forall (λ p _, p ≠ [] ∧ lstat w (parent p) = Ok Dir) w.

(** ** The calls of package [os]

    A call that changes the file system is a state transformer; [Stat],
    [Lstat] and [Readlink] only read.  The kernel refuses the empty name. *)

Definition io (A : Type) : Type := world → A * world.

Definition ret {A} (a : A) : io A := λ w, (a, w).
Definition bind {A B} (m : io A) (k : A → io B) : io B :=
  λ w, let '(a, w') := m w in k a w'.
Definition gets {A} (f : world → A) : io A := λ w, (f w, w).

Notation "'let*' x ':=' m 'in' k" := (bind m (λ x, k))
  (at level 10, x name, m at level 100, k at level 200).

Definition named {A} (op name : string) (r : result Errno A)
  : result OsError A :=
  match r with
  | Ok a => Ok a
  | Err e => Err (PathError op name e)
  end.

Definition checked {A} (name : string) (r : result Errno A) : result Errno A :=
  if decide (name = "") then Err ENOENT else r.

Definition os_Stat (name : string) : io (result OsError FileInfo) :=
  gets (λ w, named "stat" name (checked name
    match stat MAXSYMLINKS w (resolve name) with
    | Ok n => Ok (info_of (resolve name) n)
    | Err e => Err e
    end)).

Definition os_Lstat (name : string) : io (result OsError FileInfo) :=
  gets (λ w, named "lstat" name (checked name
    match lstat w (resolve name) with
    | Ok n => Ok (info_of (resolve name) n)
    | Err e => Err e
    end)).

Definition os_Readlink (name : string) : io (result OsError string) :=
  gets (λ w, named "readlink" name (checked name
    match lstat w (resolve name) with
    | Ok (Symlink target) => Ok target
    | Ok _ => Err EINVAL
    | Err e => Err e
    end)).

(** The name [os.MkdirAll] has for a directory on the way to the path it
    was given: the path itself, or what stands before one of the separators
    of a clean path. *)
Definition level_name (name : string) (p : path) : string :=
  if decide (p = resolve name) then name else "/" +:+ String.concat "/" p.

Definition mkdir_error (name : string) (e : Errno * path) : OsError :=
  PathError "mkdir" (level_name name e.2) e.1.

Definition os_MkdirAll (name : string) (perm : Z) : io (option OsError) :=
  λ w, if decide (name = "") then (Some (PathError "mkdir" name ENOENT), w)
       else let '(e, w') := mkdir_all (rev (resolve name)) w in
            (mkdir_error name <$> e, w').

(** [endsWithDot] of package [os]: the path is [.] or ends in a separator
    and a dot, that is, its last element is [.]. *)
Definition endsWithDot (name : string) : bool :=
  bool_decide (last (elements_of name) = Some ".").

(** [splitPath] of package [os], on the elements of a path: separators in
    excess at the start and separators at the end are dropped, and the path
    is split before its last element. *)
Fixpoint drop_leading (es : list string) : list string :=
  match es with
  | "" :: (("" :: _ :: _) as rest) => drop_leading rest
  | _ => es
  end.

Fixpoint drop_trailing (res : list string) : list string :=
  match res with
  | "" :: ((_ :: _) as rest) =>
      if decide (res = [""; ""]) then res else drop_trailing rest
  | _ => res
  end.

Definition splitPath (name : string) : string * string :=
  match drop_trailing (rev (drop_leading (elements_of name))) with
  | [] => (".", "")
  | [base] => (".", base)
  | base :: rdir =>
      if decide (base :: rdir = [""; ""]) then (".", "/")
      else
        let dir := String.concat "/" (rev rdir) in
        (if decide (dir = "") then "/" else dir, base)
  end.

(** [os.RemoveAll].  Nothing is done for the empty name; a name that ends
    in a dot is refused; the object at the path and everything below it is
    removed, and it is no error if there is none.  With something that is
    no directory on the way, the removal of the object fails, and so does
    opening its parent directory, or, where the parent is that file, the
    removal inside it. *)
Definition os_RemoveAll (name : string) : io (option OsError) :=
  λ w, if decide (name = "") then (None, w)
       else if endsWithDot name
       then (Some (PathError "RemoveAll" name EINVAL), w)
       else if blocked w (resolve name) then
         let '(parentDir, base) := splitPath name in
         match w !! parent (resolve name) with
         | Some (File _) =>
             (Some (PathError "unlinkat" (parentDir +:+ "/" +:+ base) ENOTDIR),
              w)
         | _ => (Some (PathError "open" parentDir ENOTDIR), w)
         end
       else (None, remove_all (resolve name) w).

Definition os_Symlink (oldname newname : string) : io (option OsError) :=
  λ w, if decide (newname = "")
       then (Some (LinkError "symlink" oldname newname ENOENT), w)
       else let '(e, w') := create (resolve newname) (Symlink oldname) w in
            (LinkError "symlink" oldname newname <$> e, w').

(** ** The CSI messages the handlers read and build *)

Module CapacityRange.
Record t : Type := { RequiredBytes : Z; LimitBytes : Z }.
End CapacityRange.

Module CreateVolumeRequest.
(** [CapacityRange] is a pointer and may be [nil]. *)
Record t : Type := {
  Name : string;
  CapacityRange : option CapacityRange.t;
  Parameters : gmap string string
}.
End CreateVolumeRequest.

Module Volume.
Record t : Type := {
  VolumeId : string;
  CapacityBytes : Z;
  VolumeContext : gmap string string
}.
End Volume.

Module CreateVolumeResponse.
Record t : Type := { Volume : Volume.t }.
End CreateVolumeResponse.

Module DeleteVolumeRequest.
Record t : Type := { VolumeId : string }.
End DeleteVolumeRequest.

Module NodePublishVolumeRequest.
Record t : Type := { VolumeId : string; TargetPath : string }.
End NodePublishVolumeRequest.

Module NodeUnpublishVolumeRequest.
Record t : Type := { VolumeId : string; TargetPath : string }.
End NodeUnpublishVolumeRequest.

(** The responses without fields. *)
Inductive DeleteVolumeResponse : Type := DeleteVolumeResponse_ .
Inductive NodePublishVolumeResponse : Type := NodePublishVolumeResponse_ .
Inductive NodeUnpublishVolumeResponse : Type := NodeUnpublishVolumeResponse_ .

Global Instance rpc_eq_dec `{EqDecision A} : EqDecision (rpc A).
Proof. solve_decision. Defined.

Global Instance Volume_eq_dec : EqDecision Volume.t.
Proof. solve_decision. Defined.

Global Instance CreateVolumeResponse_eq_dec : EqDecision CreateVolumeResponse.t.
Proof. solve_decision. Defined.

Global Instance DeleteVolumeResponse_eq_dec : EqDecision DeleteVolumeResponse.
Proof. solve_decision. Defined.

Global Instance NodePublishVolumeResponse_eq_dec :
  EqDecision NodePublishVolumeResponse.
Proof. solve_decision. Defined.

Global Instance NodeUnpublishVolumeResponse_eq_dec :
  EqDecision NodeUnpublishVolumeResponse.
Proof. solve_decision. Defined.

(** [csi.ControllerServiceCapability_RPC_Type] and
    [csi.NodeServiceCapability_RPC_Type] of CSI v1.10.0, in the order of
    their numbers. *)
Inductive ControllerServiceCapability_RPC_Type : Type :=
| ControllerServiceCapability_RPC_UNKNOWN
| ControllerServiceCapability_RPC_CREATE_DELETE_VOLUME
| ControllerServiceCapability_RPC_PUBLISH_UNPUBLISH_VOLUME
| ControllerServiceCapability_RPC_LIST_VOLUMES
| ControllerServiceCapability_RPC_GET_CAPACITY
| ControllerServiceCapability_RPC_CREATE_DELETE_SNAPSHOT
| ControllerServiceCapability_RPC_LIST_SNAPSHOTS
| ControllerServiceCapability_RPC_CLONE_VOLUME
| ControllerServiceCapability_RPC_PUBLISH_READONLY
| ControllerServiceCapability_RPC_EXPAND_VOLUME
| ControllerServiceCapability_RPC_LIST_VOLUMES_PUBLISHED_NODES
| ControllerServiceCapability_RPC_VOLUME_CONDITION
| ControllerServiceCapability_RPC_GET_VOLUME
| ControllerServiceCapability_RPC_SINGLE_NODE_MULTI_WRITER
| ControllerServiceCapability_RPC_MODIFY_VOLUME.

Inductive NodeServiceCapability_RPC_Type : Type :=
| NodeServiceCapability_RPC_UNKNOWN
| NodeServiceCapability_RPC_STAGE_UNSTAGE_VOLUME
| NodeServiceCapability_RPC_GET_VOLUME_STATS
| NodeServiceCapability_RPC_EXPAND_VOLUME
| NodeServiceCapability_RPC_VOLUME_CONDITION
| NodeServiceCapability_RPC_SINGLE_NODE_MULTI_WRITER
| NodeServiceCapability_RPC_VOLUME_MOUNT_GROUP.

Global Instance ControllerServiceCapability_RPC_Type_eq_dec :
  EqDecision ControllerServiceCapability_RPC_Type.
Proof. solve_decision. Defined.

Global Instance NodeServiceCapability_RPC_Type_eq_dec :
  EqDecision NodeServiceCapability_RPC_Type.
Proof. solve_decision. Defined.

(** A capability is a one-of with the single case [Rpc]. *)
Inductive ControllerServiceCapability : Type :=
| ControllerServiceCapability_Rpc (type : ControllerServiceCapability_RPC_Type).

Inductive NodeServiceCapability : Type :=
| NodeServiceCapability_Rpc (type : NodeServiceCapability_RPC_Type).

Record ControllerGetCapabilitiesResponse : Type :=
  { ControllerCapabilities : list ControllerServiceCapability }.

Record NodeGetCapabilitiesResponse : Type :=
  { NodeCapabilities : list NodeServiceCapability }.

(** ** controller.go *)

Definition nil_dereference : string :=
  "runtime error: invalid memory address or nil pointer dereference".

Definition CreateVolume (req : CreateVolumeRequest.t)
  : io (rpc CreateVolumeResponse.t) :=
  let volumePath := "/tmp/csi/hostpath/" +:+ CreateVolumeRequest.Name req in
  let* err := os_MkdirAll volumePath 493 in
  match err with
  | Some err =>
      ret (Fail ("failed to create volume directory: " +:+ OsError_Error err))
  | None =>
      match CreateVolumeRequest.CapacityRange req with
      | None => ret (Panic nil_dereference)
      | Some range =>
          ret (Return {| CreateVolumeResponse.Volume := {|
            Volume.VolumeId := CreateVolumeRequest.Name req;
            Volume.CapacityBytes := CapacityRange.RequiredBytes range;
            Volume.VolumeContext := CreateVolumeRequest.Parameters req |} |})
      end
  end.

Definition DeleteVolume (req : DeleteVolumeRequest.t)
  : io (rpc DeleteVolumeResponse) :=
  let volumePath := "/tmp/csi/hostpath/" +:+ DeleteVolumeRequest.VolumeId req in
  let* err := os_RemoveAll volumePath in
  match err with
  | Some err =>
      ret (Fail ("failed to delete volume directory: " +:+ OsError_Error err))
  | None => ret (Return DeleteVolumeResponse_)
  end.

Definition ControllerGetCapabilities
  : rpc ControllerGetCapabilitiesResponse :=
  let capabilities :=
    [ ControllerServiceCapability_Rpc
        ControllerServiceCapability_RPC_CREATE_DELETE_VOLUME ] in
  Return {| ControllerCapabilities := capabilities |}.

(** ** node.go *)

Definition NodePublishVolume (req : NodePublishVolumeRequest.t)
  : io (rpc NodePublishVolumeResponse) :=
  let targetPath := NodePublishVolumeRequest.TargetPath req in
  let sourcePath :=
    "/tmp/csi/hostpath/" +:+ NodePublishVolumeRequest.VolumeId req in
  let link :=
    let* err := os_Symlink sourcePath targetPath in
    match err with
    | Some err =>
        ret (Fail ("failed to create symlink from " +:+ sourcePath +:+ " to "
                   +:+ targetPath +:+ ": " +:+ OsError_Error err))
    | None => ret (Return NodePublishVolumeResponse_)
    end in
  let replace :=
    let* err := os_RemoveAll targetPath in
    match err with
    | Some err =>
        ret (Fail ("failed to remove existing target path " +:+ targetPath
                   +:+ ": " +:+ OsError_Error err))
    | None => link
    end in
  let* st := os_Stat sourcePath in
  if IsNotExist st then
    ret (Fail ("source path " +:+ sourcePath +:+ " does not exist"))
  else
    let parentDir := filepath_Dir targetPath in
    let* err := os_MkdirAll parentDir 493 in
    match err with
    | Some err =>
        ret (Fail ("failed to create parent directory " +:+ parentDir +:+ ": "
                   +:+ OsError_Error err))
    | None =>
        let* lst := os_Lstat targetPath in
        match lst with
        | Ok fi =>
            if negb (Z.land (Mode fi) ModeSymlink =? 0)%Z then
              let* rl := os_Readlink targetPath in
              match rl with
              | Ok existingSource =>
                  if String.eqb existingSource sourcePath
                  then ret (Return NodePublishVolumeResponse_)
                  else replace
              | Err _ => replace
              end
            else replace
        | Err _ => link
        end
    end.

Definition NodeUnpublishVolume (req : NodeUnpublishVolumeRequest.t)
  : io (rpc NodeUnpublishVolumeResponse) :=
  let targetPath := NodeUnpublishVolumeRequest.TargetPath req in
  let* lst := os_Lstat targetPath in
  match lst with
  | Ok fi =>
      if negb (Z.land (Mode fi) ModeSymlink =? 0)%Z then
        let* err := os_RemoveAll targetPath in
        match err with
        | Some err =>
            ret (Fail ("failed to remove symlink at target path " +:+ targetPath
                       +:+ ": " +:+ OsError_Error err))
        | None => ret (Return NodeUnpublishVolumeResponse_)
        end
      else ret (Return NodeUnpublishVolumeResponse_)
  | Err err =>
      if IsNotExist lst then ret (Return NodeUnpublishVolumeResponse_)
      else ret (Fail ("error checking target path " +:+ targetPath +:+ ": "
                      +:+ OsError_Error err))
  end.

Definition NodeGetCapabilities : rpc NodeGetCapabilitiesResponse :=
  let capabilities :=
    [ NodeServiceCapability_Rpc NodeServiceCapability_RPC_UNKNOWN ] in
  Return {| NodeCapabilities := capabilities |}.

(** ** The places the driver uses *)

Definition base_dir : path := ["tmp"; "csi"; "hostpath"].

(** The backing path of a volume, as the handlers compute it. *)
Definition backing (id : string) : string := "/tmp/csi/hostpath/" +:+ id.


(** The descriptor [CreateVolume] builds for a request with a capacity
    range. *)
Definition descriptor (req : CreateVolumeRequest.t) (range : CapacityRange.t)
  : CreateVolumeResponse.t :=
  {| CreateVolumeResponse.Volume := {|
       Volume.VolumeId := CreateVolumeRequest.Name req;
       Volume.CapacityBytes := CapacityRange.RequiredBytes range;
       Volume.VolumeContext := CreateVolumeRequest.Parameters req |} |}.

Definition Gi : Z := 1073741824.

Definition request (name : string) (required limit : Z)
  : CreateVolumeRequest.t :=
  {| CreateVolumeRequest.Name := name;
     CreateVolumeRequest.CapacityRange :=
       Some {| CapacityRange.RequiredBytes := required;
               CapacityRange.LimitBytes := limit |};
     CreateVolumeRequest.Parameters := ∅ |}.

Definition request_without_range (name : string) : CreateVolumeRequest.t :=
  {| CreateVolumeRequest.Name := name;
     CreateVolumeRequest.CapacityRange := None;
     CreateVolumeRequest.Parameters := ∅ |}.

(** ** Concrete requests and file systems *)

(** The file system after volume [v1] was created on an empty one. *)
Definition world_v1 : world :=
  {[ ["tmp"] := Dir; ["tmp"; "csi"] := Dir; ["tmp"; "csi"; "hostpath"] := Dir;
     ["tmp"; "csi"; "hostpath"; "v1"] := Dir ]}.

Definition publish_v1 : NodePublishVolumeRequest.t :=
  {| NodePublishVolumeRequest.VolumeId := "v1";
     NodePublishVolumeRequest.TargetPath := "/mnt/a" |}.

Definition unpublish_v1 : NodeUnpublishVolumeRequest.t :=
  {| NodeUnpublishVolumeRequest.VolumeId := "v1";
     NodeUnpublishVolumeRequest.TargetPath := "/mnt/a" |}.

(** Volume [v1] published at [/mnt/a]. *)
Definition world_published : world :=
  <[ ["mnt"; "a"] := Symlink "/tmp/csi/hostpath/v1" ]>
    (<[ ["mnt"] := Dir ]> world_v1).

(** No volume at all, and a file of somebody else at [/mnt/a]. *)
Definition world_foreign : world :=
  {[ ["mnt"] := Dir; ["mnt"; "a"] := File "data" ]}.

(** The last step of [NodePublishVolume]: the link is made, or the error of
    making it is returned. *)
Definition link (source target : string) : io (rpc NodePublishVolumeResponse) :=
  λ w, match os_Symlink source target w with
       | (Some err, w') =>
           (Fail ("failed to create symlink from " +:+ source +:+ " to "
                  +:+ target +:+ ": " +:+ OsError_Error err), w')
       | (None, w') => (Return NodePublishVolumeResponse_, w')
       end.

(** The step before it where something stands at the target: that is
    removed with all it contains, or the error of removing it is returned. *)
Definition replace (source target : string)
  : io (rpc NodePublishVolumeResponse) :=
  λ w, match os_RemoveAll target w with
       | (Some err, w') =>
           (Fail ("failed to remove existing target path " +:+ target +:+ ": "
                  +:+ OsError_Error err), w')
       | (None, w') => link source target w'
       end.

(** ** The phases the driver skips *)

Module NodeStageVolumeRequest.
Record t : Type := { VolumeId : string; StagingTargetPath : string }.
End NodeStageVolumeRequest.

Module NodeUnstageVolumeRequest.
Record t : Type := { VolumeId : string; StagingTargetPath : string }.
End NodeUnstageVolumeRequest.




(** ** Sequences of calls *)



(** A publish or an unpublish call. *)
Inductive NodeCall : Type :=
| CallPublish (req : NodePublishVolumeRequest.t)
| CallUnpublish (req : NodeUnpublishVolumeRequest.t).

Definition target_of (c : NodeCall) : string :=
  match c with
  | CallPublish req => NodePublishVolumeRequest.TargetPath req
  | CallUnpublish req => NodeUnpublishVolumeRequest.TargetPath req
  end.

Definition run_call (c : NodeCall) (w : world) : world :=
  match c with
  | CallPublish req => snd (NodePublishVolume req w)
  | CallUnpublish req => snd (NodeUnpublishVolume req w)
  end.

(** The file system after the calls, first to last. *)
Definition run_calls (cs : list NodeCall) (w : world) : world :=
  fold_left (λ w c, run_call c w) cs w.

(** Neither of two paths lies on the other. *)
Definition apart (p q : path) : Prop :=
  ¬ p `prefix_of` q ∧ ¬ q `prefix_of` p.

(** ** More concrete file systems and requests *)


(** Volume [v1] with a file in it. *)
Definition world_data : world :=
  <[ ["tmp"; "csi"; "hostpath"; "v1"; "data"] := File "hello" ]> world_v1.







(** * Properties of the model *)

(** An equation between closed terms of a type with decidable equality, by
    evaluation of the decision. *)
Ltac by_computation :=
  lazymatch goal with
  | |- ?P => refine (@bool_decide_eq_true_1 P _ _)
  end; vm_compute; reflexivity.

(** ** File modes and lookups *)

Section FileModes.

Lemma IsDir_info_of p n : IsDir (info_of p n) = bool_decide (n = Dir).
Proof. by destruct n. Qed.

Lemma symlink_bit p n :
  negb (Z.land (Mode (info_of p n)) ModeSymlink =? 0)%Z
  = match n with Symlink _ => true | _ => false end.
Proof. by destruct n. Qed.

End FileModes.

Section Lookup.
Implicit Types (w : world) (p q : path) (n : node).

Lemma lstat_Some w p n : p ≠ [] → w !! p = Some n → lstat w p = Ok n.
Proof. intros Hp Hn. destruct p; [done|]. simpl. by rewrite Hn. Qed.

Lemma lstat_Ok_inv w p n :
  lstat w p = Ok n → (p = [] ∧ n = Dir) ∨ (p ≠ [] ∧ w !! p = Some n).
Proof.
  destruct p as [|x p]; simpl; [intros [= <-]; by left|].
  destruct (w !! (x :: p)) eqn:E; intros [= <-]. by right.
Qed.

Lemma lstat_Err_inv w p e : lstat w p = Err e → p ≠ [] ∧ w !! p = None.
Proof.
  destruct p as [|x p]; simpl; [done|].
  by destruct (w !! (x :: p)) eqn:E.
Qed.


Lemma lstat_Dir w p : lstat w p = Ok Dir ↔ p = [] ∨ w !! p = Some Dir.
Proof.
  split.
  - intros [[-> _]|[_ H]]%lstat_Ok_inv; auto.
  - intros [->|H]; [done|]. destruct p; [done|]. by apply lstat_Some.
Qed.

Lemma stat_not_link fuel w p n :
  lstat w p = Ok n → (∀ t, n ≠ Symlink t) → stat fuel w p = Ok n.
Proof.
  intros H Hn. destruct fuel; simpl; rewrite H; destruct n; congruence.
Qed.


Lemma stat_Dir fuel w p : lstat w p = Ok Dir → stat fuel w p = Ok Dir.
Proof. intros H. by apply stat_not_link. Qed.

Lemma parent_snoc p x : parent (p ++ [x]) = p.
Proof. apply removelast_last. Qed.

End Lookup.

(** ** What stands on the way to a path *)

Section Way.
Implicit Types (w : world) (p q : path) (n : node).

Lemma elem_of_proper_prefixes q p :
  q ∈ proper_prefixes p ↔ q `prefix_of` p ∧ q ≠ p ∧ q ≠ [].
Proof.
  unfold proper_prefixes. rewrite list_elem_of_fmap. split.
  - intros (i & -> & Hi). apply elem_of_seq in Hi. split_and!.
    + apply prefix_take.
    + intros E. apply (f_equal length) in E. rewrite length_take in E. lia.
    + intros E. apply (f_equal length) in E. rewrite length_take in E.
      simpl in E. lia.
  - intros ([k ->] & Hne & Hq). exists (length q). split.
    + by rewrite take_app_length.
    + apply elem_of_seq. rewrite length_app. destruct q; [done|].
      destruct k; [by rewrite app_nil_r in Hne|]. simpl. lia.
Qed.

Lemma existsb_false {A} (f : A → bool) (l : list A) :
  existsb f l = false ↔ ∀ x, x ∈ l → f x = false.
Proof.
  induction l as [|a l IH]; simpl.
  - split; [|done]. by intros _ x ?%elem_of_nil.
  - rewrite orb_false_iff, IH. split.
    + intros [Ha Hl] x [->|Hx]%elem_of_cons; auto.
    + intros H. split; [apply H; by left|]. intros x Hx. apply H. by right.
Qed.

Lemma blocked_false w p :
  blocked w p = false
  ↔ ∀ q n, q `prefix_of` p → q ≠ p → q ≠ [] → w !! q = Some n → n = Dir.
Proof.
  unfold blocked. rewrite existsb_false. split.
  - intros H q n Hq Hne Hq0 Hn.
    assert (is_obstacle w q = false) as Hob.
    { apply H. by apply elem_of_proper_prefixes. }
    unfold is_obstacle in Hob. rewrite Hn in Hob. by destruct n.
  - intros H q (Hq & Hne & Hq0)%elem_of_proper_prefixes.
    unfold is_obstacle. destruct (w !! q) as [n|] eqn:En; [|done].
    by rewrite (H q n).
Qed.


Lemma through_link_false w p :
  through_link w p = false
  ↔ ∀ q s, q `prefix_of` p → q ≠ p → q ≠ [] → w !! q ≠ Some (Symlink s).
Proof.
  unfold through_link. rewrite existsb_false. split.
  - intros H q s Hq Hne Hq0 Hs.
    assert (is_link w q = false) as Hl.
    { apply H. by apply elem_of_proper_prefixes. }
    unfold is_link in Hl. by rewrite Hs in Hl.
  - intros H q (Hq & Hne & Hq0)%elem_of_proper_prefixes.
    unfold is_link. destruct (w !! q) as [[| |s]|] eqn:En; try done.
    by destruct (H q s).
Qed.

(** Where only directories are on the way there is no link on the way. *)
Lemma blocked_through_link w p :
  blocked w p = false → through_link w p = false.
Proof.
  rewrite blocked_false, through_link_false. intros H q s Hq Hne Hq0 Hs.
  by specialize (H q _ Hq Hne Hq0 Hs).
Qed.


End Way.

(** ** Path strings *)

Section CleanPaths.

Lemma elements_of_cons x s :
  no_separator x = true →
  elements_of (x +:+ String "/" s) = x :: elements_of s.
Proof.
  induction x as [|c x IH]; [done|]. simpl.
  intros [Hc Hx]%andb_prop. rewrite (negb_true_iff _) in Hc.
  by rewrite Hc, IH.
Qed.

Lemma elements_of_single x : no_separator x = true → elements_of x = [x].
Proof.
  induction x as [|c x IH]; [done|]. simpl.
  intros [Hc Hx]%andb_prop. rewrite (negb_true_iff _) in Hc.
  by rewrite Hc, IH.
Qed.

Lemma elements_of_concat names :
  Forall proper_name names → names ≠ [] →
  elements_of (String.concat "/" names) = names.
Proof.
  induction 1 as [|x names [Hx _] Hnames IH]; [done|]. intros _.
  destruct names as [|y names]; [by apply elements_of_single|].
  change (String.concat "/" (x :: y :: names))
    with (x +:+ String "/" (String.concat "/" (y :: names))).
  rewrite elements_of_cons by done. by rewrite IH.
Qed.

Lemma walk_proper p x : proper_name x → walk p x = p ++ [x].
Proof.
  intros (_ & H1 & H2 & H3). unfold walk.
  rewrite decide_False by (by intros [?|?]). by rewrite decide_False.
Qed.

Lemma fold_walk_proper names p :
  Forall proper_name names → fold_left walk names p = p ++ names.
Proof.
  intros H. revert p. induction H as [|x names Hx _ IH]; intros p; simpl.
  - by rewrite app_nil_r.
  - rewrite walk_proper, IH by done. by rewrite <-app_assoc.
Qed.

Lemma fold_clean_proper rooted names out :
  Forall proper_name names →
  fold_left (clean_step rooted) names out = out ++ names.
Proof.
  intros H. revert out. induction H as [|x names Hx _ IH]; intros out; simpl.
  - by rewrite app_nil_r.
  - destruct Hx as (_ & H1 & H2 & H3). unfold clean_step at 2.
    rewrite decide_False by (by intros [?|?]). rewrite decide_False by done.
    rewrite IH. by rewrite <-app_assoc.
Qed.

Lemma resolve_rooted names :
  Forall proper_name names →
  resolve ("/" +:+ String.concat "/" names) = names.
Proof.
  intros H. unfold resolve, resolve_from.
  change (elements_of ("/" +:+ String.concat "/" names))
    with ("" :: elements_of (String.concat "/" names)).
  destruct names as [|x names]; [done|].
  rewrite elements_of_concat by done.
  change (fold_left walk ("" :: x :: names) [])
    with (fold_left walk (x :: names) []).
  by rewrite fold_walk_proper.
Qed.

(** A clean absolute path names an entry of the directory [filepath.Dir]
    gives for it. *)
Lemma clean_absolute_entry t :
  clean_absolute t → ∃ x, resolve t = resolve (filepath_Dir t) ++ [x].
Proof.
  intros (names & Hne & Hnames & ->).
  destruct (exists_last Hne) as (ns & x & ->). exists x.
  rewrite resolve_rooted by done. f_equal.
  pose proof (proj1 (Forall_app _ _ _) Hnames) as [Hns _].
  unfold filepath_Dir.
  change (elements_of ("/" +:+ String.concat "/" (ns ++ [x])))
    with ("" :: elements_of (String.concat "/" (ns ++ [x]))).
  rewrite elements_of_concat by done.
  assert (is_rooted ("" :: ns ++ [x]) = true) as -> by (by destruct ns).
  change (removelast ("" :: ns ++ [x])) with (removelast (("" :: ns) ++ [x])).
  rewrite removelast_last. simpl fold_left.
  change (clean_step true [] "") with (@nil string).
  rewrite fold_clean_proper by done. simpl app.
  unfold join_elems. rewrite decide_False by done.
  by rewrite resolve_rooted.
Qed.



End CleanPaths.

Section Backing.

Lemma backing_nonempty id : backing id ≠ "".
Proof. done. Qed.

Lemma resolve_backing id :
  resolve (backing id) = fold_left walk (elements_of id) base_dir.
Proof. unfold resolve, resolve_from, backing. simpl. reflexivity. Qed.

Lemma resolve_backing_proper name :
  proper_name name → resolve (backing name) = base_dir ++ [name].
Proof.
  intros Hname. rewrite resolve_backing.
  rewrite elements_of_single by apply Hname. simpl.
  by rewrite walk_proper.
Qed.

Lemma resolve_backing_empty : resolve (backing "") = base_dir.
Proof. reflexivity. Qed.


End Backing.

(** ** Creation and removal of objects *)

Section Create.
Implicit Types (w : world) (p q : path) (n : node).

Lemma create_None p n w w' :
  create p n w = (None, w') →
  w' = <[p := n]> w ∧ p ≠ [] ∧ w !! p = None ∧ lstat w (parent p) = Ok Dir.
Proof.
  unfold create. destruct (lstat w p) eqn:E; [done|].
  apply lstat_Err_inv in E as [? ?].
  by destruct (lstat w (parent p)) as [[]|] eqn:E2; intros [= <-].
Qed.

Lemma create_Some p n w e w' : create p n w = (Some e, w') → w' = w.
Proof.
  unfold create. destruct (lstat w p); [by intros [= _ <-]|].
  by destruct (lstat w (parent p)) as [[]|]; intros [= _ <-].
Qed.



End Create.

Section MkdirAll.
Implicit Types (w : world) (p q : path) (n : node) (rp : list string).

Lemma mkdir_all_eq rp w :
  mkdir_all rp w =
  match stat MAXSYMLINKS w (rev rp) with
  | Ok n =>
      if IsDir (info_of (rev rp) n) then (None, w)
      else (Some (ENOTDIR, rev rp), w)
  | Err _ =>
      let '(err, w1) :=
        match rp with
        | [] => (None, w)
        | _ :: rparent => mkdir_all rparent w
        end in
      match err with
      | Some e => (Some e, w1)
      | None =>
          match create (rev rp) Dir w1 with
          | (None, w2) => (None, w2)
          | (Some e, w2) =>
              if is_dir (lstat w2 (rev rp)) then (None, w2)
              else (Some (e, rev rp), w2)
          end
      end
  end.
Proof. by destruct rp. Qed.

Lemma is_dir_lstat w p : is_dir (lstat w p) = true ↔ lstat w p = Ok Dir.
Proof.
  unfold is_dir. destruct (lstat w p) as [n|]; [|done].
  rewrite IsDir_info_of. destruct n; naive_solver.
Qed.

(** A directory that is already there is left alone. *)
Lemma mkdir_all_exists rp w :
  stat MAXSYMLINKS w (rev rp) = Ok Dir → mkdir_all rp w = (None, w).
Proof. intros H. by rewrite mkdir_all_eq, H. Qed.

(** After a successful call either nothing was done or the path is a
    directory in its own right. *)
Lemma mkdir_all_None rp w w' :
  mkdir_all rp w = (None, w') →
  stat MAXSYMLINKS w' (rev rp) = Ok Dir ∧ (w' = w ∨ lstat w' (rev rp) = Ok Dir).
Proof.
  rewrite mkdir_all_eq.
  destruct (stat MAXSYMLINKS w (rev rp)) as [n|e] eqn:Est.
  - rewrite IsDir_info_of. case_bool_decide; [|done].
    intros [= <-]. subst n. auto.
  - destruct (match rp with [] => _ | _ => _ end) as [[e1|] w1]; [done|].
    destruct (create (rev rp) Dir w1) as [[e2|] w2] eqn:Ecr.
    + destruct (is_dir (lstat w2 (rev rp))) eqn:Ed; [|done].
      intros [= <-]. apply is_dir_lstat in Ed. split; [by apply stat_Dir|auto].
    + intros [= <-]. apply create_None in Ecr as (-> & Hp & _).
      assert (lstat (<[rev rp:=Dir]> w1) (rev rp) = Ok Dir) as Hd.
      { apply lstat_Some; [done|]. apply lookup_insert_eq. }
      split; [by apply stat_Dir|auto].
Qed.

(** The call only adds directories, and only on the way to [rp]. *)
Lemma mkdir_all_changes rp w e w' q :
  mkdir_all rp w = (e, w') →
  w' !! q = w !! q
  ∨ (w !! q = None ∧ w' !! q = Some Dir ∧ q `prefix_of` rev rp).
Proof.
  revert w e w'. induction rp as [|x r IH]; intros w e w'; rewrite mkdir_all_eq.
  - simpl. destruct (create [] Dir w) as [e1 w1] eqn:Ecr.
    unfold create in Ecr. simpl in Ecr. injection Ecr as <- <-.
    simpl. intros [= <- <-]. by left.
  - destruct (stat MAXSYMLINKS w (rev (x :: r))) as [n|_].
    { destruct (IsDir _); intros [= <- <-]; by left. }
    destruct (mkdir_all r w) as [e1 w1] eqn:Er.
    assert (rev r `prefix_of` rev (x :: r)) as Hpre by (simpl; by eexists).
    specialize (IH _ _ _ Er).
    assert (w1 !! q = w !! q
      ∨ w !! q = None ∧ w1 !! q = Some Dir ∧ q `prefix_of` rev (x :: r)) as IH'.
    { destruct IH as [?|(? & ? & ?)]; [by left|right].
      split_and!; [done..|by etrans]. }
    destruct e1 as [e1|]; [by intros [= <- <-]|].
    destruct (create (rev (x :: r)) Dir w1) as [[e2|] w2] eqn:Ecr.
    + apply create_Some in Ecr as ->.
      by destruct (is_dir _); intros [= <- <-].
    + apply create_None in Ecr as (-> & Hp & Hfree & _). intros [= <- <-].
      destruct (decide (q = rev (x :: r))) as [->|Hne].
      * right. rewrite lookup_insert_eq. split_and!; [|done..].
        destruct IH' as [<-|(? & ? & _)]; congruence.
      * by rewrite lookup_insert_ne.
Qed.





End MkdirAll.

Section RemoveAll.
Implicit Types (w : world) (p q : path) (n : node).

Lemma remove_all_lookup p w q :
  remove_all p w !! q = if decide (p `prefix_of` q) then None else w !! q.
Proof.
  unfold remove_all. case_decide as Hpre.
  - apply map_lookup_filter_None. right. intros n _ Hn. by apply Hn.
  - destruct (w !! q) as [n|] eqn:E.
    + by apply map_lookup_filter_Some.
    + apply map_lookup_filter_None. by left.
Qed.

Lemma remove_all_below p w q : p `prefix_of` q → remove_all p w !! q = None.
Proof. intros H. rewrite remove_all_lookup. by case_decide. Qed.

Lemma remove_all_other p w q :
  ¬ p `prefix_of` q → remove_all p w !! q = w !! q.
Proof. intros H. rewrite remove_all_lookup. by case_decide. Qed.



Lemma prefix_parent p q : q ≠ [] → p `prefix_of` parent q → p `prefix_of` q.
Proof.
  intros Hq. destruct (exists_last Hq) as (q' & x & ->).
  rewrite parent_snoc. intros. by apply prefix_app_r.
Qed.

Lemma remove_all_wf p w : wf w → wf (remove_all p w).
Proof.
  intros Hwf q n Hq. rewrite remove_all_lookup in Hq.
  case_decide as Hpre; [done|]. destruct (Hwf q n Hq) as [Hq0 Hd].
  split; [done|]. apply lstat_Dir in Hd as [E|Hd]; apply lstat_Dir; [by left|].
  right. rewrite remove_all_other; [done|].
  intros Hp. apply Hpre. by apply prefix_parent.
Qed.

(** In a well-formed file system nothing lies below a missing object, or
    below one that is no directory. *)
Lemma wf_below w p q :
  wf w → p ≠ [] → w !! p ≠ Some Dir → p `prefix_of` q → q ≠ p → w !! q = None.
Proof.
  intros Hwf Hp Hnd [k ->]. induction k as [|x k IH] using rev_ind.
  { rewrite app_nil_r. done. }
  intros _. rewrite app_assoc.
  destruct (w !! ((p ++ k) ++ [x])) as [n|] eqn:E; [|done].
  destruct (Hwf _ _ E) as [_ Hd]. rewrite parent_snoc in Hd.
  apply lstat_Dir in Hd as [E0|Hd]; [by destruct p|].
  destruct (decide (p ++ k = p)) as [Ek|Hne]; [congruence|].
  rewrite IH in Hd; done.
Qed.

Lemma remove_all_leaf p w :
  wf w → p ≠ [] → w !! p ≠ Some Dir → remove_all p w = delete p w.
Proof.
  intros Hwf Hp Hnd. apply map_eq. intros q. rewrite remove_all_lookup.
  destruct (decide (q = p)) as [->|Hne].
  - rewrite lookup_delete_eq. by case_decide.
  - rewrite lookup_delete_ne by done. case_decide; [|done].
    symmetry. by eapply wf_below.
Qed.

Lemma os_RemoveAll_ok name w :
  name ≠ "" → endsWithDot name = false → blocked w (resolve name) = false →
  os_RemoveAll name w = (None, remove_all (resolve name) w).
Proof.
  intros H1 H2 H3. unfold os_RemoveAll. by rewrite decide_False, H2, H3.
Qed.

(** [os.RemoveAll] removes at and below the path, or does nothing; when it
    returns an error it has done nothing. *)
Lemma os_RemoveAll_changes name w e w' :
  os_RemoveAll name w = (e, w') →
  w' = w ∨ (e = None ∧ w' = remove_all (resolve name) w).
Proof.
  unfold os_RemoveAll. case_decide; [intros [= <- <-]; by left|].
  destruct (endsWithDot name); [intros [= <- <-]; by left|].
  destruct (blocked w (resolve name)).
  - destruct (splitPath name) as [d b].
    destruct (w !! parent (resolve name)) as [[| |]|]; intros [= <- <-];
      by left.
  - intros [= <- <-]. by right.
Qed.

Lemma os_RemoveAll_None name w w' :
  name ≠ "" → os_RemoveAll name w = (None, w') →
  w' = remove_all (resolve name) w.
Proof.
  intros Hn. unfold os_RemoveAll. rewrite decide_False by done.
  destruct (endsWithDot name); [done|].
  destruct (blocked w (resolve name)); [|by intros [= <-]].
  destruct (splitPath name) as [d b].
  by destruct (w !! parent (resolve name)) as [[| |]|].
Qed.

Lemma os_RemoveAll_Some name w e w' :
  os_RemoveAll name w = (Some e, w') → w' = w.
Proof. by intros [?|[? _]]%os_RemoveAll_changes. Qed.

Lemma os_RemoveAll_other name w e w' q :
  os_RemoveAll name w = (e, w') → ¬ resolve name `prefix_of` q →
  w' !! q = w !! q.
Proof.
  intros [->|[_ ->]]%os_RemoveAll_changes Hq; [done|].
  by apply remove_all_other.
Qed.


End RemoveAll.

(** ** The handlers as decisions on the file system *)

Section Controller.
Implicit Types (w : world) (req : CreateVolumeRequest.t).

Lemma os_MkdirAll_backing id w :
  os_MkdirAll (backing id) 493 w
  = let '(e, w') := mkdir_all (rev (resolve (backing id))) w in
    (mkdir_error (backing id) <$> e, w').
Proof. done. Qed.

Lemma CreateVolume_eq req w :
  CreateVolume req w =
  match os_MkdirAll (backing (CreateVolumeRequest.Name req)) 493 w with
  | (Some err, w') =>
      (Fail ("failed to create volume directory: " +:+ OsError_Error err), w')
  | (None, w') =>
      match CreateVolumeRequest.CapacityRange req with
      | None => (Panic nil_dereference, w')
      | Some range => (Return (descriptor req range), w')
      end
  end.
Proof.
  unfold CreateVolume, bind, backing.
  destruct (os_MkdirAll _ _ w) as [[err|] w']; [done|].
  by destruct (CreateVolumeRequest.CapacityRange req).
Qed.

Lemma os_MkdirAll_None id w w' :
  os_MkdirAll (backing id) 493 w = (None, w') →
  mkdir_all (rev (resolve (backing id))) w = (None, w').
Proof.
  rewrite os_MkdirAll_backing.
  destruct (mkdir_all _ w) as [[e|] w1]; simpl; congruence.
Qed.

Lemma os_MkdirAll_again id w w' :
  os_MkdirAll (backing id) 493 w = (None, w') →
  os_MkdirAll (backing id) 493 w' = (None, w').
Proof.
  intros H%os_MkdirAll_None. rewrite os_MkdirAll_backing.
  apply mkdir_all_None in H as [H _].
  by rewrite mkdir_all_exists.
Qed.

Lemma DeleteVolume_eq (req : DeleteVolumeRequest.t) w :
  DeleteVolume req w =
  match os_RemoveAll (backing (DeleteVolumeRequest.VolumeId req)) w with
  | (Some err, w') =>
      (Fail ("failed to delete volume directory: " +:+ OsError_Error err), w')
  | (None, w') => (Return DeleteVolumeResponse_, w')
  end.
Proof.
  unfold DeleteVolume, bind, backing.
  by destruct (os_RemoveAll _ w) as [[err|] w'].
Qed.

(** With nothing but directories on the way to the backing path of a clean
    name, [DeleteVolume] removes what is there. *)
Lemma DeleteVolume_ok (req : DeleteVolumeRequest.t) w :
  endsWithDot (backing (DeleteVolumeRequest.VolumeId req)) = false →
  blocked w (resolve (backing (DeleteVolumeRequest.VolumeId req))) = false →
  DeleteVolume req w
  = (Return DeleteVolumeResponse_,
     remove_all (resolve (backing (DeleteVolumeRequest.VolumeId req))) w).
Proof.
  intros Hdot Hway. rewrite DeleteVolume_eq.
  by rewrite os_RemoveAll_ok by (done || apply backing_nonempty).
Qed.

Lemma DeleteVolume_other (req : DeleteVolumeRequest.t) w q :
  ¬ resolve (backing (DeleteVolumeRequest.VolumeId req)) `prefix_of` q →
  snd (DeleteVolume req w) !! q = w !! q.
Proof.
  intros Hq. rewrite DeleteVolume_eq.
  destruct (os_RemoveAll _ w) as [e w'] eqn:E.
  rewrite <-(os_RemoveAll_other _ _ _ _ _ E Hq). by destruct e.
Qed.

End Controller.

Section Node.
Implicit Types (w : world) (p q : path) (n : node).

Lemma filepath_Dir_nonempty t : filepath_Dir t ≠ "".
Proof. unfold filepath_Dir, join_elems. simpl. by case_decide. Qed.


(** [NodePublishVolume] as a decision on the state of the file system. *)
Lemma NodePublishVolume_eq (req : NodePublishVolumeRequest.t) w :
  let t := NodePublishVolumeRequest.TargetPath req in
  let s := backing (NodePublishVolumeRequest.VolumeId req) in
  NodePublishVolume req w =
  if IsNotExist (fst (os_Stat s w)) then
    (Fail ("source path " +:+ s +:+ " does not exist"), w)
  else
    match os_MkdirAll (filepath_Dir t) 493 w with
    | (Some err, w1) =>
        (Fail ("failed to create parent directory " +:+ filepath_Dir t +:+ ": "
               +:+ OsError_Error err), w1)
    | (None, w1) =>
        if decide (t = "") then link s t w1
        else
          match lstat w1 (resolve t) with
          | Ok n =>
              if decide (n = Symlink s)
              then (Return NodePublishVolumeResponse_, w1)
              else replace s t w1
          | Err _ => link s t w1
          end
    end.
Proof.
  intros t s. unfold NodePublishVolume, bind, ret, replace, link.
  fold t (backing (NodePublishVolumeRequest.VolumeId req)). fold s.
  destruct (os_Stat s w) as [st w0] eqn:Est.
  assert (w0 = w) as -> by (unfold os_Stat, gets in Est; congruence).
  simpl fst. destruct (IsNotExist st); [done|].
  destruct (os_MkdirAll (filepath_Dir t) 493 w) as [[err|] w1]; [done|].
  unfold os_Lstat, os_Readlink, gets, named, checked.
  case_decide as Ht; [by destruct (os_Symlink s t w1) as [[?|] ?]|].
  destruct (lstat w1 (resolve t)) as [n|e] eqn:El;
    [|by destruct (os_Symlink s t w1) as [[?|] ?]].
  rewrite symlink_bit.
  destruct n as [|data|target];
    try (rewrite decide_False by done;
         destruct (os_RemoveAll t w1) as [[?|] w2]; [done|];
         by destruct (os_Symlink s t w2) as [[?|] ?]).
  rewrite El. destruct (String.eqb_spec target s) as [->|Hne].
  - by rewrite decide_True.
  - rewrite decide_False by congruence.
    destruct (os_RemoveAll t w1) as [[?|] w2]; [done|].
    by destruct (os_Symlink s t w2) as [[?|] ?].
Qed.








Lemma NodeUnpublishVolume_eq (req : NodeUnpublishVolumeRequest.t) w :
  let t := NodeUnpublishVolumeRequest.TargetPath req in
  NodeUnpublishVolume req w =
  if decide (t = "") then (Return NodeUnpublishVolumeResponse_, w)
  else
    match lstat w (resolve t) with
    | Ok (Symlink _) =>
        match os_RemoveAll t w with
        | (Some err, w') =>
            (Fail ("failed to remove symlink at target path " +:+ t +:+ ": "
                   +:+ OsError_Error err), w')
        | (None, w') => (Return NodeUnpublishVolumeResponse_, w')
        end
    | Ok _ => (Return NodeUnpublishVolumeResponse_, w)
    | Err ENOENT => (Return NodeUnpublishVolumeResponse_, w)
    | Err e =>
        (Fail ("error checking target path " +:+ t +:+ ": "
               +:+ OsError_Error (PathError "lstat" t e)), w)
    end.
Proof.
  intros t. unfold NodeUnpublishVolume, bind, ret, os_Lstat,
    gets, named, checked. fold t.
  case_decide as Ht; [done|].
  destruct (lstat w (resolve t)) as [n|e].
  - rewrite symlink_bit. destruct n; try done.
    by destruct (os_RemoveAll t w) as [[?|] ?].
  - by destruct e.
Qed.

Lemma wf_empty : wf ∅.
Proof. intros p n Hp. by rewrite lookup_empty in Hp. Qed.


End Node.

Section Frame.
Implicit Types (w : world) (q : path).

Lemma link_changes s t w r w' :
  link s t w = (r, w') → w' = w ∨ w' = <[resolve t := Symlink s]> w.
Proof.
  unfold link, os_Symlink. case_decide; [intros [= _ <-]; by left|].
  destruct (create (resolve t) (Symlink s) w) as [[e|] w1] eqn:E; simpl.
  - apply create_Some in E as ->. intros [= _ <-]. by left.
  - apply create_None in E as (-> & _). intros [= _ <-]. by right.
Qed.

Lemma link_other s t w r w' q :
  link s t w = (r, w') → ¬ resolve t `prefix_of` q → w' !! q = w !! q.
Proof.
  intros [->| ->]%link_changes Hq; [done|].
  rewrite lookup_insert_ne; [done|]. by intros <-.
Qed.

Lemma replace_other s t w r w' q :
  replace s t w = (r, w') → ¬ resolve t `prefix_of` q → w' !! q = w !! q.
Proof.
  unfold replace. destruct (os_RemoveAll t w) as [e w1] eqn:E. intros H Hq.
  rewrite <-(os_RemoveAll_other _ _ _ _ _ E Hq).
  destruct e; [by injection H as _ <-|]. by eapply link_other.
Qed.



End Frame.

(** ** Steps of the handlers *)

Section Steps.
Implicit Types (w : world) (p q : path) (n : node).

Lemma wf_parent w p n : wf w → w !! p = Some n → lstat w (parent p) = Ok Dir.
Proof. intros Hwf Hp. by destruct (Hwf _ _ Hp). Qed.


(** Above an object of a well-formed file system there are directories
    only. *)
Lemma wf_above w p q n :
  wf w → w !! p = Some n → q `prefix_of` p → q ≠ p → lstat w q = Ok Dir.
Proof.
  intros Hwf Hp [k ->]. revert n Hp.
  induction k as [|x k IH] using rev_ind; intros n Hp Hne.
  { by rewrite app_nil_r in Hne. }
  rewrite app_assoc in Hp. pose proof (wf_parent _ _ _ Hwf Hp) as Hd.
  rewrite parent_snoc in Hd.
  destruct k as [|y k]; [by rewrite app_nil_r in Hd|].
  apply lstat_Dir in Hd as [E|Hd]; [by destruct q|].
  eapply IH; [done|]. intros E. apply (f_equal length) in E.
  rewrite length_app in E. simpl in E. lia.
Qed.

(** In a well-formed file system the way to an object, and the way to an
    entry of a directory, is clear. *)
Lemma wf_not_blocked w p n : wf w → w !! p = Some n → blocked w p = false.
Proof.
  intros Hwf Hp. apply blocked_false. intros q m Hq Hne Hq0 Hm.
  pose proof (wf_above _ _ _ _ Hwf Hp Hq Hne) as Hd.
  apply lstat_Dir in Hd as [?|Hd]; congruence.
Qed.



Lemma lstat_absent w p :
  wf w → p ≠ [] → w !! p = None → lstat w (parent p) = Ok Dir →
  lstat w p = Err ENOENT.
Proof.
  intros Hwf Hp Hfree Hpar. destruct p as [|x p]; [done|].
  unfold lstat. rewrite Hfree.
  assert (blocked w (x :: p) = false) as ->; [|done].
  unfold blocked. apply not_true_is_false.
  intros (q & Hq & Hob)%existsb_exists.
  unfold proper_prefixes in Hq.
  apply list_elem_of_In, list_elem_of_fmap in Hq as (i & -> & Hi).
  apply list_elem_of_In, in_seq in Hi.
  unfold is_obstacle in Hob.
  destruct (w !! take i (x :: p)) as [m|] eqn:Em; [|done].
  assert (take i (x :: p) `prefix_of` parent (x :: p)) as [k Hk].
  { destruct (exists_last Hp) as (p' & y & E). rewrite E, parent_snoc.
    rewrite E in Hi. rewrite length_app in Hi. simpl in Hi.
    rewrite take_app_le by lia. apply prefix_take. }
  destruct k as [|y k].
  - rewrite app_nil_r in Hk. rewrite <-Hk in Em.
    apply lstat_Dir in Hpar as [E|Hd]; [|by rewrite Em in Hd; simplify_eq].
    rewrite E in Hk. destruct i; [lia|done].
  - apply lstat_Dir in Hpar as [E|Hd].
    { rewrite E in Hk. by destruct (take i (x :: p)). }
    assert (lstat w (take i (x :: p)) = Ok Dir) as Hd'.
    { apply (wf_above w (parent (x :: p)) _ Dir); [done..|by exists (y :: k)|].
      intros E. rewrite <-E in Hk. apply (f_equal length) in Hk.
      rewrite length_app in Hk. simpl in Hk. lia. }
    apply lstat_Dir in Hd' as [E|Hd']; [destruct i; [lia|done]|].
    rewrite Em in Hd'. by simplify_eq.
Qed.


End Steps.

Section Forward.
Implicit Types (w : world) (p q : path) (n : node).





End Forward.

Section NodeSteps.
Implicit Types (w : world) (p q : path) (n : node).




Lemma NodePublishVolume_other (req : NodePublishVolumeRequest.t) w q :
  ¬ q `prefix_of` resolve (filepath_Dir (NodePublishVolumeRequest.TargetPath req)) →
  ¬ resolve (NodePublishVolumeRequest.TargetPath req) `prefix_of` q →
  snd (NodePublishVolume req w) !! q = w !! q.
Proof.
  intros Hp Hq. rewrite NodePublishVolume_eq.
  destruct (IsNotExist _); [done|].
  unfold os_MkdirAll. rewrite decide_False by apply filepath_Dir_nonempty.
  destruct (mkdir_all _ w) as [e w1] eqn:Emk.
  assert (w1 !! q = w !! q) as <-.
  { destruct (mkdir_all_changes _ _ _ _ q Emk) as [H|(_ & _ & H)]; [done|].
    by rewrite rev_involutive in H. }
  destruct e; simpl; [done|].
  assert (∀ w2, snd (link (backing (NodePublishVolumeRequest.VolumeId req))
                       (NodePublishVolumeRequest.TargetPath req) w2) !! q
                = w2 !! q) as Hlink.
  { intros w2. destruct (link _ _ w2) as [r w3] eqn:El.
    by eapply link_other. }
  case_decide; [by apply Hlink|].
  destruct (lstat w1 _) as [n|]; [|by apply Hlink].
  case_decide; [done|].
  destruct (replace _ _ w1) as [r w2] eqn:Er. by eapply replace_other.
Qed.

Lemma NodeUnpublishVolume_other (req : NodeUnpublishVolumeRequest.t) w q :
  ¬ resolve (NodeUnpublishVolumeRequest.TargetPath req) `prefix_of` q →
  snd (NodeUnpublishVolume req w) !! q = w !! q.
Proof.
  intros Hq. rewrite NodeUnpublishVolume_eq. case_decide; [done|].
  destruct (lstat w _) as [[| |]|[]]; try done.
  destruct (os_RemoveAll _ w) as [e w'] eqn:E.
  rewrite <-(os_RemoveAll_other _ _ _ _ _ E Hq). by destruct e.
Qed.


(** Two paths with a common extension lie one on the other. *)
Lemma prefix_comparable p1 p2 q :
  p1 `prefix_of` q → p2 `prefix_of` q → p1 `prefix_of` p2 ∨ p2 `prefix_of` p1.
Proof. apply prefix_weak_total. Qed.

Lemma apart_below p t q :
  apart t p → p `prefix_of` q → ¬ t `prefix_of` q ∧ ¬ q `prefix_of` parent t.
Proof.
  intros [H1 H2] Hq. split.
  - intros Ht. by destruct (prefix_comparable _ _ _ Ht Hq).
  - intros Hqt. apply H2. etrans; [done|]. etrans; [done|].
    destruct (decide (t = [])) as [->|Hne]; [done|].
    destruct (exists_last Hne) as (t' & x & ->). rewrite parent_snoc.
    by apply prefix_app_r.
Qed.

End NodeSteps.

Section Unknown.
Implicit Types (w : world).




End Unknown.

Section Escape.



End Escape.

(** ** Deletion of a volume with a proper name *)

Section Deletion.
Implicit Types (w : world).



End Deletion.

(** ** The concrete file systems *)

Lemma wf_decide (w : world) : bool_decide (wf w) = true → wf w.
Proof. apply bool_decide_eq_true_1. Qed.


Lemma wf_world_published : wf world_published.
Proof. apply wf_decide. vm_compute. reflexivity. Qed.


Example CreateVolume_v1 :
  CreateVolume (request "v1" Gi 0) ∅
  = (Return (descriptor (request "v1" Gi 0)
               {| CapacityRange.RequiredBytes := Gi;
                  CapacityRange.LimitBytes := 0 |}), world_v1).
Proof. by_computation. Qed.




Lemma proper_name_v1 : proper_name "v1".
Proof. by split_and!. Qed.

Lemma wf_world_data : wf world_data.
Proof. apply wf_decide. vm_compute. reflexivity. Qed.

Lemma proper_name_v2 : proper_name "v2".
Proof. by split_and!. Qed.





(** * The claims *)

(** ** Creation under a name that is already taken *)

(** C1, as the code has it: once [CreateVolume] has succeeded for a name,
    every later request for that name that carries a capacity range
    succeeds as well, changes nothing on disk and returns the same id with
    the capacity of the later request.  An identical request therefore gets
    the identical descriptor, and a different capacity is no conflict. *)
Theorem CreateVolume_same_name req1 req2 range2 w resp1 w1 :
  CreateVolumeRequest.Name req2 = CreateVolumeRequest.Name req1 →
  CreateVolumeRequest.CapacityRange req2 = Some range2 →
  CreateVolume req1 w = (Return resp1, w1) →
  ∃ resp2,
    CreateVolume req2 w1 = (Return resp2, w1)
    ∧ Volume.VolumeId (CreateVolumeResponse.Volume resp2)
      = Volume.VolumeId (CreateVolumeResponse.Volume resp1)
    ∧ Volume.CapacityBytes (CreateVolumeResponse.Volume resp2)
      = CapacityRange.RequiredBytes range2
    ∧ (req2 = req1 → resp2 = resp1).
Proof.
  intros Hname Hrange. rewrite !CreateVolume_eq, Hname, Hrange.
  destruct (os_MkdirAll _ _ w) as [[err|] w'] eqn:Emk; [done|].
  destruct (CreateVolumeRequest.CapacityRange req1) as [range1|] eqn:E1;
    [|done].
  intros [= <- <-]. rewrite (os_MkdirAll_again _ _ _ Emk).
  eexists. split; [done|]. simpl. split_and!; [done..|].
  intros ->. congruence.
Qed.

Lemma CreateVolume_same_name_witness :
  ∃ resp2,
    CreateVolume (request "v1" (2 * Gi) 0) world_v1 = (Return resp2, world_v1)
    ∧ Volume.VolumeId (CreateVolumeResponse.Volume resp2) = "v1"
    ∧ Volume.CapacityBytes (CreateVolumeResponse.Volume resp2) = (2 * Gi)%Z.
Proof.
  destruct (CreateVolume_same_name (request "v1" Gi 0)
              (request "v1" (2 * Gi) 0) _ ∅ _ _ eq_refl eq_refl CreateVolume_v1)
    as (resp2 & H1 & H2 & H3 & _).
  exists resp2. split_and!; [exact H1|exact H2|exact H3].
Defined.

(** C1 as stated fails: after two identical requests for [v1] with 1Gi, a
    third one asking for 2Gi is answered with a descriptor, not with an
    error. *)
Lemma CreateVolume_conflict_accepted :
  fst (CreateVolume (request "v1" Gi 0) ∅)
  = Return (descriptor (request "v1" Gi 0)
      {| CapacityRange.RequiredBytes := Gi; CapacityRange.LimitBytes := 0 |})
  ∧ fst (CreateVolume (request "v1" Gi 0)
           (snd (CreateVolume (request "v1" Gi 0) ∅)))
    = Return (descriptor (request "v1" Gi 0)
        {| CapacityRange.RequiredBytes := Gi; CapacityRange.LimitBytes := 0 |})
  ∧ fst (CreateVolume (request "v1" (2 * Gi) 0)
           (snd (CreateVolume (request "v1" Gi 0)
              (snd (CreateVolume (request "v1" Gi 0) ∅)))))
    = Return (descriptor (request "v1" (2 * Gi) 0)
        {| CapacityRange.RequiredBytes := 2 * Gi;
           CapacityRange.LimitBytes := 0 |}).
Proof. split_and!; by_computation. Qed.

(** ** Requests without a capacity range *)

(** C3 fails for a request that carries no capacity range: the handler
    reads [req.CapacityRange.RequiredBytes] through the nil pointer.  It
    never returns a descriptor for such a request; when the directory can
    be made it panics, after making it. *)
Theorem CreateVolume_nil_CapacityRange name params w :
  (∀ resp,
     fst (CreateVolume {| CreateVolumeRequest.Name := name;
                          CreateVolumeRequest.CapacityRange := None;
                          CreateVolumeRequest.Parameters := params |} w)
     ≠ Return resp)
  ∧ (∀ w', os_MkdirAll (backing name) 493 w = (None, w') →
       CreateVolume {| CreateVolumeRequest.Name := name;
                       CreateVolumeRequest.CapacityRange := None;
                       CreateVolumeRequest.Parameters := params |} w
       = (Panic nil_dereference, w'))
  ∧ CreateVolume (request_without_range "v1") ∅
    = (Panic nil_dereference, world_v1).
Proof.
  split_and!.
  - intros resp. rewrite CreateVolume_eq. simpl.
    by destruct (os_MkdirAll _ _ w) as [[err|] w'].
  - intros w' H. rewrite CreateVolume_eq. simpl. by rewrite H.
  - by_computation.
Qed.

(** ** Requests a validation would reject *)

(** C4 as stated fails: a request with an empty name is answered with a
    volume whose id is empty, and so is one whose required bytes exceed its
    limit; both leave a directory behind. *)
Lemma CreateVolume_accepts_malformed :
  CreateVolume (request "" 0 0) ∅
  = (Return (descriptor (request "" 0 0)
       {| CapacityRange.RequiredBytes := 0; CapacityRange.LimitBytes := 0 |}),
     {[ ["tmp"] := Dir; ["tmp"; "csi"] := Dir;
        ["tmp"; "csi"; "hostpath"] := Dir ]})
  ∧ CreateVolume (request "v1" 10 5) ∅
    = (Return (descriptor (request "v1" 10 5)
         {| CapacityRange.RequiredBytes := 10; CapacityRange.LimitBytes := 5 |}),
       world_v1).
Proof. split; by_computation. Qed.

(** C4, as the code has it: a request is not validated.  Whatever its name
    and its range, the outcome follows directory creation: if the backing
    directory can be made the request is answered with the name as id and
    the required bytes as capacity, and the directory stands; if not, the
    error of the directory creation is returned.  For the empty name the
    backing directory is the base directory. *)
Theorem CreateVolume_unvalidated req range w :
  CreateVolumeRequest.CapacityRange req = Some range →
  match os_MkdirAll (backing (CreateVolumeRequest.Name req)) 493 w with
  | (None, w') =>
      CreateVolume req w = (Return (descriptor req range), w')
      ∧ stat MAXSYMLINKS w' (resolve (backing (CreateVolumeRequest.Name req)))
        = Ok Dir
  | (Some err, w') =>
      CreateVolume req w
      = (Fail ("failed to create volume directory: " +:+ OsError_Error err), w')
  end
  ∧ (CreateVolumeRequest.Name req = "" →
     resolve (backing (CreateVolumeRequest.Name req)) = base_dir).
Proof.
  intros Hrange. split; [|by intros ->].
  rewrite CreateVolume_eq, Hrange.
  destruct (os_MkdirAll _ _ w) as [[err|] w'] eqn:Emk; [done|].
  split; [done|]. apply os_MkdirAll_None, mkdir_all_None in Emk as [H _].
  by rewrite rev_involutive in H.
Qed.

Lemma CreateVolume_unvalidated_witness :
  CreateVolume (request "" 10 5) ∅
  = (Return (descriptor (request "" 10 5)
       {| CapacityRange.RequiredBytes := 10; CapacityRange.LimitBytes := 5 |}),
     {[ ["tmp"] := Dir; ["tmp"; "csi"] := Dir;
        ["tmp"; "csi"; "hostpath"] := Dir ]}).
Proof.
  exact (proj1 (proj1 (CreateVolume_unvalidated (request "" 10 5) _ ∅ eq_refl))).
Defined.

(** ** Deletion *)




(** C10: for the empty volume id the path [DeleteVolume] computes is the
    base directory itself.  Where the base directory stands, the call
    succeeds and removes the base directory with everything below it, so
    the backing directory of every volume, and touches nothing else. *)
Theorem DeleteVolume_empty_id (w : world) :
  wf w → lstat w base_dir = Ok Dir →
  backing "" = "/tmp/csi/hostpath/"
  ∧ resolve (backing "") = base_dir
  ∧ ∃ w',
      DeleteVolume {| DeleteVolumeRequest.VolumeId := "" |} w
      = (Return DeleteVolumeResponse_, w')
      ∧ (∀ q, base_dir `prefix_of` q → w' !! q = None)
      ∧ (∀ q, ¬ base_dir `prefix_of` q → w' !! q = w !! q)
      ∧ (∀ name, proper_name name → w' !! resolve (backing name) = None).
Proof.
  intros Hwf Hbase. split_and!; [done..|].
  assert (blocked w base_dir = false) as Hway.
  { apply lstat_Dir in Hbase as [?|Hbase]; [done|]. by eapply wf_not_blocked. }
  rewrite DeleteVolume_ok; [|done|exact Hway].
  cbn [DeleteVolumeRequest.VolumeId]. rewrite resolve_backing_empty.
  eexists. split_and!; [done|..].
  - intros q Hq. by apply remove_all_below.
  - intros q Hq. by apply remove_all_other.
  - intros name Hname. rewrite resolve_backing_proper by done.
    apply remove_all_below. by apply prefix_app_r.
Qed.

Lemma DeleteVolume_empty_id_witness :
  ∃ w',
    DeleteVolume {| DeleteVolumeRequest.VolumeId := "" |} world_data
    = (Return DeleteVolumeResponse_, w')
    ∧ w' !! resolve (backing "v1") = None
    ∧ w' !! ["tmp"; "csi"] = Some Dir.
Proof.
  destruct (DeleteVolume_empty_id world_data wf_world_data eq_refl)
    as (_ & _ & w' & H1 & _ & H3 & H4).
  exists w'. split_and!; [exact H1|exact (H4 "v1" proper_name_v1)|].
  rewrite H3; [reflexivity|]. intros [k Hk]. discriminate Hk.
Defined.

(** Two volumes are provisioned; deleting the volume with the empty id
    removes both. *)
Example DeleteVolume_empty_id_two_volumes :
  snd (DeleteVolume {| DeleteVolumeRequest.VolumeId := "" |}
         (snd (CreateVolume (request "v2" Gi 0)
            (snd (CreateVolume (request "v1" Gi 0) ∅)))))
  = {[ ["tmp"] := Dir; ["tmp"; "csi"] := Dir ]}.
Proof. by_computation. Qed.

(** ** Publishing *)

Section Publish.
Variables (req : NodePublishVolumeRequest.t) (w : world) (x : string).

Let t := NodePublishVolumeRequest.TargetPath req.
Let s := backing (NodePublishVolumeRequest.VolumeId req).

Hypothesis Hwf : wf w.
Hypothesis Hx : resolve t = resolve (filepath_Dir t) ++ [x].
Hypothesis Hdot : endsWithDot t = false.











End Publish.

Lemma clean_absolute_mnt_a : clean_absolute "/mnt/a".
Proof.
  exists ["mnt"; "a"]. split_and!; [done| |done].
  repeat constructor; done.
Qed.




(** ** Unpublishing *)




(** A file of somebody else at the target survives the call. *)
Example NodeUnpublishVolume_foreign :
  NodeUnpublishVolume unpublish_v1 world_foreign
  = (Return NodeUnpublishVolumeResponse_, world_foreign).
Proof. by_computation. Qed.

(** ** Failed calls *)




(** ** Capabilities *)

(** C9 as stated fails: the capability list of [NodeGetCapabilities] is not
    empty. *)
Lemma NodeGetCapabilities_not_empty :
  NodeGetCapabilities ≠ Return {| NodeCapabilities := [] |}.
Proof. discriminate. Qed.

(** C9, as the code has it: [NodeGetCapabilities] succeeds with exactly one
    capability, of type [UNKNOWN], so [STAGE_UNSTAGE_VOLUME] is not among
    the capabilities; [ControllerGetCapabilities] succeeds with exactly the
    one capability [CREATE_DELETE_VOLUME]. *)
Theorem capabilities_advertised :
  NodeGetCapabilities
  = Return {| NodeCapabilities :=
      [NodeServiceCapability_Rpc NodeServiceCapability_RPC_UNKNOWN] |}
  ∧ (∀ resp, NodeGetCapabilities = Return resp →
       NodeServiceCapability_Rpc NodeServiceCapability_RPC_STAGE_UNSTAGE_VOLUME
       ∉ NodeCapabilities resp)
  ∧ ControllerGetCapabilities
    = Return {| ControllerCapabilities :=
        [ControllerServiceCapability_Rpc
           ControllerServiceCapability_RPC_CREATE_DELETE_VOLUME] |}.
Proof.
  split_and!; [done| |done].
  intros resp [= <-]. simpl. by intros [= ]%list_elem_of_singleton.
Qed.

(** ** When creation succeeds *)



(** ** What a handler can change *)

(** On a well-formed file system, whatever the outcome, a handler changes
    the file system only in its own place.  For a proper name with no
    symbolic link on the way to the backing path, [CreateVolume] changes
    nothing but on the way to the backing path and [DeleteVolume] nothing
    but at and below it.  For a clean absolute target with no symbolic link
    on the way to it, [NodePublishVolume] changes nothing but on the way to
    the parent of the target and at and below the target, and
    [NodeUnpublishVolume] nothing but at and below the target. *)
Theorem handlers_frame (w : world) (q : path) :
  wf w →
  (∀ req,
     proper_name (CreateVolumeRequest.Name req) →
     through_link w (resolve (backing (CreateVolumeRequest.Name req))) = false →
     ¬ q `prefix_of` resolve (backing (CreateVolumeRequest.Name req)) →
     snd (CreateVolume req w) !! q = w !! q)
  ∧ (∀ req,
       proper_name (DeleteVolumeRequest.VolumeId req) →
       through_link w (resolve (backing (DeleteVolumeRequest.VolumeId req)))
       = false →
       ¬ resolve (backing (DeleteVolumeRequest.VolumeId req)) `prefix_of` q →
       snd (DeleteVolume req w) !! q = w !! q)
  ∧ (∀ req,
       clean_absolute (NodePublishVolumeRequest.TargetPath req) →
       through_link w (resolve (NodePublishVolumeRequest.TargetPath req))
       = false →
       ¬ q `prefix_of` resolve (filepath_Dir (NodePublishVolumeRequest.TargetPath req)) →
       ¬ resolve (NodePublishVolumeRequest.TargetPath req) `prefix_of` q →
       snd (NodePublishVolume req w) !! q = w !! q)
  ∧ (∀ req,
       clean_absolute (NodeUnpublishVolumeRequest.TargetPath req) →
       through_link w (resolve (NodeUnpublishVolumeRequest.TargetPath req))
       = false →
       ¬ resolve (NodeUnpublishVolumeRequest.TargetPath req) `prefix_of` q →
       snd (NodeUnpublishVolume req w) !! q = w !! q).
Proof.
  intros _. split_and!; intros req _ _.
  - intros Hq. rewrite CreateVolume_eq, os_MkdirAll_backing.
    destruct (mkdir_all _ w) as [e w1] eqn:Emk.
    destruct (mkdir_all_changes _ _ _ _ q Emk) as [H|(_ & _ & H)].
    + destruct e; simpl; [done|].
      by destruct (CreateVolumeRequest.CapacityRange req).
    + by rewrite rev_involutive in H.
  - by apply DeleteVolume_other.
  - by apply NodePublishVolume_other.
  - by apply NodeUnpublishVolume_other.
Qed.

Lemma handlers_frame_witness :
  snd (NodePublishVolume publish_v1 world_data)
    !! ["tmp"; "csi"; "hostpath"; "v1"; "data"]
  = Some (File "hello").
Proof.
  refine (eq_trans (proj1 (proj2 (proj2 (handlers_frame world_data
            ["tmp"; "csi"; "hostpath"; "v1"; "data"] wf_world_data)))
            publish_v1 clean_absolute_mnt_a eq_refl _ _) eq_refl);
    intros [k Hk]; discriminate Hk.
Defined.

(** * Further properties *)

(** ** The life of a volume *)



(** ** What publishing leaves alone *)

(** A sequence of publish and unpublish calls is made on a well-formed file
    system.  Every target is a clean absolute path apart from a directory,
    no symbolic link stands on the way to a target, and no target lies on
    the way to another.  Then the calls, whatever they return, change
    neither that directory nor anything in it.  So the backing directory of
    a volume and its content outlast every cycle of publishing and
    unpublishing at such targets outside it. *)
Theorem volume_content_survives (cs : list NodeCall) (w : world) (p q : path) :
  wf w →
  Forall (λ c, clean_absolute (target_of c)
               ∧ apart (resolve (target_of c)) p
               ∧ through_link w (resolve (target_of c)) = false
               ∧ Forall (λ c', resolve (target_of c')
                                 `prefix_of` resolve (target_of c) →
                               resolve (target_of c')
                               = resolve (target_of c)) cs) cs →
  p `prefix_of` q →
  run_calls cs w !! q = w !! q.
Proof.
  intros _ Hcs Hq.
  assert (Forall (λ c, clean_absolute (target_of c)
                       ∧ apart (resolve (target_of c)) p) cs) as Hcs'.
  { eapply Forall_impl; [done|]. by intros c (? & ? & _). }
  clear Hcs. revert w. induction Hcs' as [|c cs [Hc Ha] _ IH]; intros w.
  { done. }
  change (run_calls (c :: cs) w) with (run_calls cs (run_call c w)).
  rewrite IH. apply clean_absolute_entry in Hc as [x Hx].
  destruct (apart_below _ _ _ Ha Hq) as [Hnt Hnp].
  destruct c as [req|req]; simpl in *.
  - apply NodePublishVolume_other; [|done].
    by rewrite Hx, parent_snoc in Hnp.
  - by apply NodeUnpublishVolume_other.
Qed.

Lemma volume_content_survives_witness :
  run_calls [CallPublish publish_v1; CallUnpublish unpublish_v1;
             CallPublish publish_v1] world_data
    !! ["tmp"; "csi"; "hostpath"; "v1"; "data"]
  = Some (File "hello").
Proof.
  refine (eq_trans (volume_content_survives _ world_data
            ["tmp"; "csi"; "hostpath"; "v1"] _ wf_world_data _ _) eq_refl).
  - repeat constructor; try exact clean_absolute_mnt_a; try reflexivity;
      intros [k Hk]; discriminate Hk.
  - by exists ["data"].
Defined.

(** ** Unpublishing twice *)

(** On a well-formed file system a second [NodeUnpublishVolume] with the
    same request returns what the first returned and changes nothing
    more. *)
Theorem NodeUnpublishVolume_twice
    (req : NodeUnpublishVolumeRequest.t) (w : world) :
  wf w →
  NodeUnpublishVolume req (snd (NodeUnpublishVolume req w))
  = (fst (NodeUnpublishVolume req w), snd (NodeUnpublishVolume req w)).
Proof.
  intros Hwf. set (t := NodeUnpublishVolumeRequest.TargetPath req).
  assert (∀ r, NodeUnpublishVolume req w = (r, w) →
    NodeUnpublishVolume req (snd (NodeUnpublishVolume req w))
    = (fst (NodeUnpublishVolume req w), snd (NodeUnpublishVolume req w)))
    as Hsame.
  { intros r E. by rewrite E at 1; simpl; rewrite E. }
  pose proof (NodeUnpublishVolume_eq req w) as E. cbv zeta in E. fold t in E.
  destruct (decide (t = "")) as [Ht|Ht]; [by eapply Hsame|].
  destruct (lstat w (resolve t)) as [n|e] eqn:El.
  - destruct n as [|data|s]; [by eapply Hsame..|].
    apply lstat_Ok_inv in El as Hl. destruct Hl as [[_ ?]|[HT Hs]]; [done|].
    destruct (os_RemoveAll t w) as [[err|] w'] eqn:Er.
    { apply os_RemoveAll_Some in Er as Hw. subst w'. by eapply Hsame. }
    apply os_RemoveAll_None in Er as ->; [|done].
    rewrite remove_all_leaf in E by (done || congruence).
    rewrite E. simpl. rewrite NodeUnpublishVolume_eq. fold t.
    rewrite decide_False by done.
    rewrite lstat_absent; [done| |done|apply lookup_delete_eq|].
    + rewrite <-(remove_all_leaf _ w) by (done || congruence).
      by apply remove_all_wf.
    + pose proof (wf_parent _ _ _ Hwf Hs) as Hd.
      apply lstat_Dir in Hd as [?|Hd]; apply lstat_Dir; [by left|right].
      rewrite lookup_delete_ne; [done|]. intros E'. congruence.
  - destruct e; by eapply Hsame.
Qed.

Lemma NodeUnpublishVolume_twice_witness :
  NodeUnpublishVolume unpublish_v1
    (snd (NodeUnpublishVolume unpublish_v1 world_published))
  = (Return NodeUnpublishVolumeResponse_, world_v1 ∪ {[ ["mnt"] := Dir ]}).
Proof.
  refine (eq_trans (NodeUnpublishVolume_twice unpublish_v1 world_published
            wf_world_published) _).
  by_computation.
Defined.

(** ** Volumes side by side *)

(** Creating or deleting a volume with a proper name changes nothing at or
    below the backing directory of a volume with another proper name. *)
Theorem volumes_isolated (w : world) (name other : string) (q : path) :
  proper_name name → proper_name other → name ≠ other →
  resolve (backing other) `prefix_of` q →
  (∀ req, CreateVolumeRequest.Name req = name →
     snd (CreateVolume req w) !! q = w !! q)
  ∧ (∀ req, DeleteVolumeRequest.VolumeId req = name →
       snd (DeleteVolume req w) !! q = w !! q).
Proof.
  intros Hname Hother Hne. rewrite resolve_backing_proper by done.
  intros Hq.
  assert (¬ base_dir ++ [name] `prefix_of` q) as Hnq.
  { intros Hn. destruct (prefix_comparable _ _ _ Hn Hq) as [[k Hk]|[k Hk]];
      simpl in Hk; by simplify_eq. }
  split; intros req Hreq.
  - rewrite CreateVolume_eq, os_MkdirAll_backing, Hreq.
    destruct (mkdir_all _ w) as [e w1] eqn:Emk.
    assert (w1 !! q = w !! q) as <-.
    { destruct (mkdir_all_changes _ _ _ _ q Emk) as [H|(_ & _ & H)]; [done|].
      rewrite rev_involutive, resolve_backing_proper in H by done.
      assert (base_dir ++ [other] `prefix_of` base_dir ++ [name]) as [k Hk]
        by (by etrans).
      simpl in Hk. by simplify_eq. }
    destruct e; simpl; [done|].
    by destruct (CreateVolumeRequest.CapacityRange req).
  - apply DeleteVolume_other. by rewrite Hreq, resolve_backing_proper.
Qed.

Lemma volumes_isolated_witness :
  snd (DeleteVolume {| DeleteVolumeRequest.VolumeId := "v2" |} world_data)
    !! ["tmp"; "csi"; "hostpath"; "v1"; "data"]
  = Some (File "hello").
Proof.
  refine (eq_trans (proj2 (volumes_isolated world_data "v2" "v1" _
            proper_name_v2 proper_name_v1 _ _)
            {| DeleteVolumeRequest.VolumeId := "v2" |} eq_refl) eq_refl).
  - discriminate.
  - by exists ["data"].
Defined.

(** ** Publishing a volume that is not there *)





(** ** Creation over a file *)



(** ** Volume ids that leave the base directory *)



(** ** One volume at two targets *)


